(** * astro-validate-env: the environment validator and the declaration generator

    Shallow embedding of [validateEnv] (validator, both copies in
    src/unnamed/part_000, with [getTimeString] and [getLogPrefix]), of
    [generateProcessEnvDeclaration] (src/process-env-gen.ts) and of the
    [astro:config:setup] hook (src/index.ts).

    Modelling choices:
    - a JS string is a Stdlib [string]; one character stands for one UTF-16
      code unit, so [String.length] is [value.length];
    - a JS number in the config ([length], [min], [max]) is a [Z]; its
      truthiness ([length && ...]) is "different from 0";
    - [process.env] is a lookup [string -> option string];
    - [Object.entries(vars)] is the list of the object's entries in its own
      property order ([js_object_entries] computes that order from the
      insertion order);
    - [new URL(value)] not throwing is an abstract predicate [url_parses];
    - the logging prefix ([getLogPrefix()], which reads the clock) is an
      abstract string [log_prefix];
    - the observable effects are a list of [Event]s, ending with
      [ProcessExit 1] when [process.exit(1)] is called. *)

From Stdlib Require Import String Ascii List ZArith Bool Lia.
From Stdlib Require Import DecimalString Permutation Sorted.
Import ListNotations.
Open Scope string_scope.

(** ** Characters and string helpers *)

Definition dq : string := String (ascii_of_nat 34) EmptyString.
Definition nl : string := String (ascii_of_nat 10) EmptyString.

(** [s.startsWith(p)] *)
Definition starts_with (value p : string) : bool := String.prefix p value.

(** [s.includes(p)] *)
Fixpoint includes_str (value p : string) : bool :=
  String.prefix p value ||
  match value with
  | EmptyString => false
  | String _ rest => includes_str rest p
  end.

(** [s.endsWith(p)]: some suffix of [value] equals [p]. *)
Fixpoint ends_with (value p : string) : bool :=
  String.eqb value p ||
  match value with
  | EmptyString => false
  | String _ rest => ends_with rest p
  end.

(** [n.toString()] for an integral number *)
Definition num_to_string (n : Z) : string :=
  NilZero.string_of_int (Z.to_int n).

(** [xs.join(sep)] *)
Definition join (sep : string) (xs : list string) : string := String.concat sep xs.

(** ** Data model (src/index.ts, [varsSchema] after defaults) *)

Inductive AstroContext := Dev | Build | Server.

Definition context_eqb (a b : AstroContext) : bool :=
  match a, b with
  | Dev, Dev | Build, Build | Server, Server => true
  | _, _ => false
  end.

(** [exactly: string | string[]] *)
Inductive Exactly :=
| ExactlyString (s : string)
| ExactlyArray (xs : list string).

Module VarConfig.
Record t := mk {
  context : list AstroContext;
  optional : bool;
  secret : bool;
  exactly : option Exactly;
  startsWith : option string;
  endsWith : option string;
  includes : option string;
  length : option Z;
  min : Z;
  max : option Z;
  url : option bool
}.

(** The object [varsSchema] produces from [{}]: every default applied. *)
Definition default : t :=
  mk [Dev; Build; Server] false false None None None None None 1 None None.
End VarConfig.

Definition Vars := list (string * VarConfig.t).

(** ** JS truthiness of the optional fields *)

Definition truthy_string (o : option string) : bool :=
  match o with
  | Some s => negb (String.eqb s "")
  | None => false
  end.

Definition truthy_number (o : option Z) : bool :=
  match o with
  | Some n => negb (Z.eqb n 0)
  | None => false
  end.

(** A string is truthy when non-empty; an array is always truthy. *)
Definition truthy_exactly (o : option Exactly) : bool :=
  match o with
  | Some (ExactlyString s) => negb (String.eqb s "")
  | Some (ExactlyArray _) => true
  | None => false
  end.

Definition truthy_bool (o : option bool) : bool :=
  match o with Some b => b | None => false end.

(** ** Issues and invalid variables *)

Inductive Issue :=
| Missing
| NotExactlyOneOf (xs : list string)
| NotExactly (s : string)
| NotStartsWith (s : string)
| NotEndsWith (s : string)
| NotIncludes (s : string)
| NotLength (n : Z)
| BelowMin (n : Z)
| AboveMax (n : Z)
| NotUrl.

Definition getCharacterString (n : Z) : string :=
  if Z.eqb n 1 then "character" else "characters".

Definition issue_text (i : Issue) : string :=
  match i with
  | Missing => "Missing"
  | NotExactlyOneOf xs => "Expected to exactly match one of '" ++ join "', '" xs ++ "'"
  | NotExactly s => "Expected exactly '" ++ s ++ "'"
  | NotStartsWith s => "Expected to start with '" ++ s ++ "'"
  | NotEndsWith s => "Expected to end with '" ++ s ++ "'"
  | NotIncludes s => "Expected to include '" ++ s ++ "'"
  | NotLength n => "Expected to be exactly " ++ num_to_string n ++ " characters long"
  | BelowMin n => "Expected to be at least " ++ num_to_string n ++ " "
                    ++ getCharacterString n ++ " long"
  | AboveMax n => "Expected to be at most " ++ num_to_string n ++ " "
                    ++ getCharacterString n ++ " long"
  | NotUrl => "Expected to be a valid URL"
  end.

Record InvalidVar := mkInvalidVar {
  key : string;
  value : option string;
  issues : list Issue;
  iv_secret : bool
}.

(** ** Observable effects *)

Inductive Event :=
| LoggerError (msg : string)
| LoggerInfo (msg : string)
| ConsoleError (msg : string)
| ProcessExit (code : Z).

Section Validator.

Variable url_parses : string -> bool.
Variable log_prefix : string.

(** Lines 54-66: the exact-match check; [Some issue] means the variable is
    pushed with this single issue and the loop [continue]s. *)
Definition exactly_check (ex : option Exactly) (v : string) : option Issue :=
  if truthy_exactly ex then
    match ex with
    | Some (ExactlyArray xs) =>
        if existsb (String.eqb v) xs then None else Some (NotExactlyOneOf xs)
    | Some (ExactlyString s) =>
        if String.eqb v s then None else Some (NotExactly s)
    | None => None
    end
  else None.

(** Lines 68-84: the accumulating checks, in source order. *)
Definition accumulated_issues (c : VarConfig.t) (v : string) : list Issue :=
  let len := Z.of_nat (String.length v) in
  ((match VarConfig.startsWith c with
   | Some p => if truthy_string (Some p) && negb (starts_with v p) then [NotStartsWith p] else []
   | None => [] end) ++
  (match VarConfig.endsWith c with
   | Some p => if truthy_string (Some p) && negb (ends_with v p) then [NotEndsWith p] else []
   | None => [] end) ++
  (match VarConfig.includes c with
   | Some p => if truthy_string (Some p) && negb (includes_str v p) then [NotIncludes p] else []
   | None => [] end) ++
  (match VarConfig.length c with
   | Some n => if truthy_number (Some n) && negb (Z.eqb len n) then [NotLength n] else []
   | None => [] end) ++
  (if Z.ltb len (VarConfig.min c) then [BelowMin (VarConfig.min c)] else []) ++
  (match VarConfig.max c with
   | Some n => if truthy_number (Some n) && Z.ltb n len then [AboveMax n] else []
   | None => [] end) ++
  (if truthy_bool (VarConfig.url c) then (if url_parses v then [] else [NotUrl]) else []))%list.

(** The body of the [for] loop (lines 34-86) for one entry: [Some iv] when
    [iv] is pushed onto [invalidVars]. *)
Definition check_var (astroContext : AstroContext) (env : string -> option string)
    (entry : string * VarConfig.t) : option InvalidVar :=
  let (k, c) := entry in
  if negb (existsb (context_eqb astroContext) (VarConfig.context c)) then None
  else
    let val := env k in
    match val with
    | None =>
        if VarConfig.optional c then None
        else Some (mkInvalidVar k None [Missing] (VarConfig.secret c))
    | Some v =>
        match exactly_check (VarConfig.exactly c) v with
        | Some i => Some (mkInvalidVar k (Some v) [i] (VarConfig.secret c))
        | None =>
            match accumulated_issues c v with
            | [] => None
            | is => Some (mkInvalidVar k (Some v) is (VarConfig.secret c))
            end
        end
    end.

(** The loop over [Object.entries(vars)], pushing onto [invalidVars]. *)
Definition invalid_vars (astroContext : AstroContext) (env : string -> option string)
    (vars : Vars) : list InvalidVar :=
  fold_left (fun acc entry =>
               match check_var astroContext env entry with
               | Some iv => (acc ++ [iv])%list
               | None => acc
               end) vars [].

(** Lines 92-97: the rendering of the value. *)
Definition value_string (iv : InvalidVar) : string :=
  match value iv with
  | None => ""
  | Some v =>
      if String.eqb v "" then "=" ++ dq ++ dq
      else if iv_secret iv then "=<secret>"
      else if negb (String.eqb v "") then "=" ++ v
      else ""
  end.

Definition report_line (iv : InvalidVar) : string :=
  key iv ++ value_string iv ++ " -> " ++ join ", " (map issue_text (issues iv)).

(** Lines 89-102: the report. *)
Definition report (ivs : list InvalidVar) : list Event :=
  match ivs with
  | [] => [LoggerInfo (log_prefix ++ "All configured environment variables are valid")]
  | _ :: _ =>
      LoggerError (log_prefix ++ "The following environment variables are invalid:" ++ nl)
        :: (map (fun iv => ConsoleError (report_line iv)) ivs ++ [ProcessExit 1])%list
  end.

Definition validateEnv (vars : Vars) (astroContext : AstroContext)
    (env : string -> option string) : list Event :=
  report (invalid_vars astroContext env vars).

End Validator.

(** ** The declaration generator (src/process-env-gen.ts) *)

Definition member_line (entry : string * VarConfig.t) : string :=
  let (k, c) := entry in
  if VarConfig.optional c then "      readonly " ++ k ++ "?: string"
  else "      readonly " ++ k ++ ": string".

Definition decl_header : string :=
  "declare global {" ++ nl ++ "  namespace NodeJS {" ++ nl ++ "    interface ProcessEnv {" ++ nl.

Definition decl_footer : string :=
  nl ++ "    }" ++ nl ++ "  }" ++ nl ++ "}" ++ nl ++ nl ++ "export {}" ++ nl.

(** The template literal after [trimStart()]. *)
Definition env_declaration (vars : Vars) : string :=
  let lines := map member_line vars in
  decl_header ++ join nl lines ++ decl_footer.

Record FileWrite := mkFileWrite { path : string; contents : string }.

Definition generateProcessEnvDeclaration (vars : Vars) : FileWrite :=
  mkFileWrite "process.env.d.ts" (env_declaration vars).

(** ** Property order of a JS object ([Object.entries])

    The order is the language's (OrdinaryOwnPropertyKeys): the keys that are
    array indices (canonical decimal strings of the integers 0 .. 2^32 - 2)
    come first, in ascending numeric order, then the other string keys in
    insertion order. [props] lists the object's properties in insertion
    order. *)

Fixpoint decimal_value (s : string) (acc : Z) : option Z :=
  match s with
  | EmptyString => Some acc
  | String ch rest =>
      let n := Z.of_nat (nat_of_ascii ch) in
      if (48 <=? n)%Z && (n <=? 57)%Z then decimal_value rest (acc * 10 + (n - 48))
      else None
  end.

Definition array_index (k : string) : option Z :=
  match k with
  | EmptyString => None
  | String ch rest =>
      if Ascii.eqb ch "0"%char && negb (String.eqb rest "") then None
      else match decimal_value k 0 with
           | Some n => if (n <=? 4294967294)%Z then Some n else None
           | None => None
           end
  end.

Definition is_array_index (k : string) : bool :=
  match array_index k with Some _ => true | None => false end.

Fixpoint insert_by_index {A} (x : Z * A) (l : list (Z * A)) : list (Z * A) :=
  match l with
  | [] => [x]
  | y :: t => if (fst x <? fst y)%Z then x :: y :: t else y :: insert_by_index x t
  end.

Definition index_entries {A} (props : list (string * A)) : list (Z * (string * A)) :=
  flat_map (fun e => match array_index (fst e) with Some n => [(n, e)] | None => [] end) props.

Definition js_object_entries {A} (props : list (string * A)) : list (string * A) :=
  (map snd (fold_right insert_by_index [] (index_entries props))
   ++ filter (fun e => negb (is_array_index (fst e))) props)%list.

(** ** Auxiliary definitions *)

Definition option_list {A} (o : option A) : list A :=
  match o with Some x => [x] | None => [] end.

(** The same configuration with another [optional] flag. *)
Definition with_optional (c : VarConfig.t) (b : bool) : VarConfig.t :=
  VarConfig.mk (VarConfig.context c) b (VarConfig.secret c) (VarConfig.exactly c)
    (VarConfig.startsWith c) (VarConfig.endsWith c) (VarConfig.includes c)
    (VarConfig.length c) (VarConfig.min c) (VarConfig.max c) (VarConfig.url c).

(** The same configuration without an exact-match constraint. *)
Definition without_exactly (c : VarConfig.t) : VarConfig.t :=
  VarConfig.mk (VarConfig.context c) (VarConfig.optional c) (VarConfig.secret c) None
    (VarConfig.startsWith c) (VarConfig.endsWith c) (VarConfig.includes c)
    (VarConfig.length c) (VarConfig.min c) (VarConfig.max c) (VarConfig.url c).

(** ** Sample inputs *)

Definition all_contexts : list AstroContext := [Dev; Build; Server].

(** [{ exactly: "" }] after defaults *)
Definition rule_exactly_empty : VarConfig.t :=
  VarConfig.mk all_contexts false false (Some (ExactlyString "")) None None None None 1 None None.

(** [{ length: 0 }] after defaults *)
Definition rule_length_zero : VarConfig.t :=
  VarConfig.mk all_contexts false false None None None None (Some 0%Z) 1 None None.

(** [{ exactly: "abc" }] after defaults *)
Definition rule_exactly_abc : VarConfig.t :=
  VarConfig.mk all_contexts false false (Some (ExactlyString "abc")) None None None None 1 None None.

(** [{ length: 5, min: 3, max: 1 }] *)
Definition rule_length_min_max : VarConfig.t :=
  VarConfig.mk all_contexts false false None None None None (Some 5%Z) 3 (Some 1%Z) None.

(** A [process.env] holding exactly the given bindings. *)
Definition env_of (bindings : list (string * string)) : string -> option string :=
  fun k => match find (fun kv => String.eqb (fst kv) k) bindings with
           | Some (_, v) => Some v
           | None => None
           end.

(** What a rule contributes to the declaration. *)
Definition key_and_optional (e : string * VarConfig.t) : string * bool :=
  (fst e, VarConfig.optional (snd e)).

(** The object [{ B: {}, "1": {} }] after defaults, in insertion order. *)
Definition props_B_1 : Vars := [("B", VarConfig.default); ("1", VarConfig.default)].

(** A URL parser that accepts everything (the sample rules never ask for a URL). *)
Definition url_always : string -> bool := fun _ => true.

(** [{ context: ["build"] }] *)
Definition rule_build_only : VarConfig.t :=
  VarConfig.mk [Build] false false None None None None None 1 None None.

(** ** The checks of [accumulated_issues], one block each *)

Definition startsWith_issues (c : VarConfig.t) (v : string) : list Issue :=
  match VarConfig.startsWith c with
  | Some p => if truthy_string (Some p) && negb (starts_with v p) then [NotStartsWith p] else []
  | None => [] end.

Definition endsWith_issues (c : VarConfig.t) (v : string) : list Issue :=
  match VarConfig.endsWith c with
  | Some p => if truthy_string (Some p) && negb (ends_with v p) then [NotEndsWith p] else []
  | None => [] end.

Definition includes_issues (c : VarConfig.t) (v : string) : list Issue :=
  match VarConfig.includes c with
  | Some p => if truthy_string (Some p) && negb (includes_str v p) then [NotIncludes p] else []
  | None => [] end.

Definition length_issues (c : VarConfig.t) (v : string) : list Issue :=
  match VarConfig.length c with
  | Some n => if truthy_number (Some n) && negb (Z.eqb (Z.of_nat (String.length v)) n)
              then [NotLength n] else []
  | None => [] end.

Definition min_issues (c : VarConfig.t) (v : string) : list Issue :=
  if Z.ltb (Z.of_nat (String.length v)) (VarConfig.min c) then [BelowMin (VarConfig.min c)] else [].

Definition max_issues (c : VarConfig.t) (v : string) : list Issue :=
  match VarConfig.max c with
  | Some n => if truthy_number (Some n) && Z.ltb n (Z.of_nat (String.length v))
              then [AboveMax n] else []
  | None => [] end.

Definition url_issues (url_parses : string -> bool) (c : VarConfig.t) (v : string) : list Issue :=
  if truthy_bool (VarConfig.url c) then (if url_parses v then [] else [NotUrl]) else [].

(** Which check an issue comes from. *)
Definition issue_kind (i : Issue) : nat :=
  match i with
  | Missing => 0 | NotExactlyOneOf _ => 1 | NotExactly _ => 2 | NotStartsWith _ => 3
  | NotEndsWith _ => 4 | NotIncludes _ => 5 | NotLength _ => 6 | BelowMin _ => 7
  | AboveMax _ => 8 | NotUrl => 9
  end.

(** ** The second copy of [validateEnv] (src/unnamed/part_000, lines 105-197)

    The same loop; the report has no log prefix and nothing is logged when
    every variable is valid. *)
Definition report_v2 (ivs : list InvalidVar) : list Event :=
  match ivs with
  | [] => []
  | _ :: _ =>
      LoggerError ("The following environment variables are invalid:" ++ nl)
        :: (map (fun iv => ConsoleError (report_line iv)) ivs ++ [ProcessExit 1])%list
  end.

Definition validateEnv_v2 (url_parses : string -> bool) (vars : Vars) (astroContext : AstroContext)
    (env : string -> option string) : list Event :=
  report_v2 (invalid_vars url_parses astroContext env vars).

(** ** The log prefix (lines 12-29) *)

(** [s.split(" ")]: the pieces between the spaces, at least one. *)
Fixpoint split_space (s : string) : list string :=
  match s with
  | EmptyString => [""]
  | String ch rest =>
      let parts := split_space rest in
      if Ascii.eqb ch " "%char then "" :: parts
      else match parts with
           | p :: ps => String ch p :: ps
           | [] => [String ch ""]
           end
  end.

(** [getTimeString], given the result of [new Date().toTimeString()]. *)
Definition getTimeString (timeString : string) : string :=
  match nth_error (split_space timeString) 0 with
  | Some first => first
  | None => timeString
  end.

(** The logger passed in: [console] (server context) or Astro's logger. *)
Inductive Logger := NativeConsole | AstroLogger.

Definition getLogPrefix (logger : Logger) (timeString : string) : string :=
  match logger with
  | NativeConsole => getTimeString timeString ++ " [astro-validate-env] "
  | AstroLogger => ""
  end.

(** ** The [astro:config:setup] hook (src/index.ts, lines 99-108) *)

(** Astro's [command]. *)
Inductive Command := CmdDev | CmdBuild | CmdPreview | CmdSync.

Inductive HookEffect :=
| HookWrite (f : FileWrite)
| HookEmit (e : Event).

(** The hook receives Astro's logger, so the validator logs with
    [getLogPrefix AstroLogger]. *)
Definition config_setup (url_parses : string -> bool) (env : string -> option string)
    (timeString : string) (vars : Vars) (command : Command) (isRestart : bool)
    : list HookEffect :=
  if isRestart then []
  else match command with
       | CmdSync => [HookWrite (generateProcessEnvDeclaration vars)]
       | CmdDev =>
           HookWrite (generateProcessEnvDeclaration vars)
             :: map HookEmit (validateEnv url_parses (getLogPrefix AstroLogger timeString)
                                vars Dev env)
       | CmdBuild =>
           HookWrite (generateProcessEnvDeclaration vars)
             :: map HookEmit (validateEnv url_parses (getLogPrefix AstroLogger timeString)
                                vars Build env)
       | CmdPreview => []
       end.

(** * Properties *)

Section Properties.

Variable url_parses : string -> bool.

Lemma invalid_vars_fold ctx env (vars : Vars) (acc : list InvalidVar) :
  fold_left (fun acc entry =>
               match check_var url_parses ctx env entry with
               | Some iv => (acc ++ [iv])%list
               | None => acc
               end) vars acc
  = (acc ++ flat_map (fun e => option_list (check_var url_parses ctx env e)) vars)%list.
Proof.
  revert acc; induction vars as [|e vars IH]; intros acc; simpl.
  - now rewrite app_nil_r.
  - rewrite IH. destruct (check_var url_parses ctx env e); simpl.
    + now rewrite <- app_assoc.
    + reflexivity.
Qed.

(** The violations are the per-entry results, in entry order. *)
Lemma invalid_vars_flat_map ctx env (vars : Vars) :
  invalid_vars url_parses ctx env vars
  = flat_map (fun e => option_list (check_var url_parses ctx env e)) vars.
Proof. unfold invalid_vars. now rewrite invalid_vars_fold. Qed.

Lemma invalid_vars_app ctx env (l1 l2 : Vars) :
  invalid_vars url_parses ctx env (l1 ++ l2)%list
  = (invalid_vars url_parses ctx env l1 ++ invalid_vars url_parses ctx env l2)%list.
Proof. rewrite !invalid_vars_flat_map. apply flat_map_app. Qed.

Lemma invalid_vars_cons ctx env e (l : Vars) :
  invalid_vars url_parses ctx env (e :: l)
  = (option_list (check_var url_parses ctx env e) ++ invalid_vars url_parses ctx env l)%list.
Proof. rewrite !invalid_vars_flat_map. reflexivity. Qed.

Lemma accumulated_issues_in_min c v :
  In (BelowMin (VarConfig.min c)) (accumulated_issues url_parses c v)
  <-> (Z.of_nat (String.length v) < VarConfig.min c)%Z.
Proof.
  unfold accumulated_issues.
  destruct (VarConfig.startsWith c) as [p1|];
    [destruct (truthy_string (Some p1) && negb (starts_with v p1))|];
  destruct (VarConfig.endsWith c) as [p2|];
    try destruct (truthy_string (Some p2) && negb (ends_with v p2));
  destruct (VarConfig.includes c) as [p3|];
    try destruct (truthy_string (Some p3) && negb (includes_str v p3));
  destruct (VarConfig.length c) as [n4|];
    try destruct (truthy_number (Some n4) && negb (Z.eqb (Z.of_nat (String.length v)) n4));
  destruct (Z.ltb (Z.of_nat (String.length v)) (VarConfig.min c)) eqn:Hmin;
  destruct (VarConfig.max c) as [n6|];
    try destruct (truthy_number (Some n6) && Z.ltb n6 (Z.of_nat (String.length v)));
  destruct (truthy_bool (VarConfig.url c)); try destruct (url_parses v);
  simpl; rewrite ?Z.ltb_lt, ?Z.ltb_ge in Hmin;
  (split; [intros H; repeat (destruct H as [H|H]; try discriminate H); try lia;
           try (injection H; intros; lia); contradiction
          |intros; try lia; tauto]).
Qed.

Lemma existsb_context_in ctx l :
  existsb (context_eqb ctx) l = true <-> In ctx l.
Proof.
  rewrite existsb_exists. split.
  - intros [x [Hx Heq]]. destruct ctx, x; simpl in Heq; congruence.
  - intros H. exists ctx. split; [assumption|]. destruct ctx; reflexivity.
Qed.

Lemma check_var_issues_nonempty ctx env e iv :
  check_var url_parses ctx env e = Some iv -> issues iv <> [].
Proof.
  destruct e as [k c]. unfold check_var.
  destruct (negb (existsb (context_eqb ctx) (VarConfig.context c))); [discriminate|].
  destruct (env k) as [v|].
  - destruct (exactly_check (VarConfig.exactly c) v).
    + intros H. injection H as <-. discriminate.
    + destruct (accumulated_issues url_parses c v) eqn:Hi; [discriminate|].
      intros H. injection H as <-. simpl. discriminate.
  - destruct (VarConfig.optional c); [discriminate|].
    intros H. injection H as <-. discriminate.
Qed.

(** A truthy exact-match constraint that fails stops the checks with its single
    issue; one that passes leaves the other checks as without it. *)
Lemma exactly_truthy_short_circuit ctx env k c v :
  In ctx (VarConfig.context c) -> env k = Some v ->
  truthy_exactly (VarConfig.exactly c) = true ->
  (forall i, exactly_check (VarConfig.exactly c) v = Some i ->
     check_var url_parses ctx env (k, c)
     = Some (mkInvalidVar k (Some v) [i] (VarConfig.secret c))) /\
  (exactly_check (VarConfig.exactly c) v = None ->
     check_var url_parses ctx env (k, c) = check_var url_parses ctx env (k, without_exactly c)).
Proof.
  intros Hctx Hv _. apply existsb_context_in in Hctx.
  unfold check_var; cbn [VarConfig.context without_exactly VarConfig.exactly].
  rewrite Hctx, Hv. simpl negb. cbv iota.
  split.
  - intros i Hi. now rewrite Hi.
  - intros Hn. rewrite Hn. reflexivity.
Qed.

(** A non-zero exact-length constraint that the value misses is reported. *)
Lemma nonzero_length_reported c v n :
  VarConfig.length c = Some n -> n <> 0%Z -> Z.of_nat (String.length v) <> n ->
  In (NotLength n) (accumulated_issues url_parses c v).
Proof.
  intros Hl Hn Hlen. unfold accumulated_issues. rewrite Hl.
  assert (E : truthy_number (Some n) && negb (Z.eqb (Z.of_nat (String.length v)) n) = true).
  { simpl. apply andb_true_iff; split; apply negb_true_iff; apply Z.eqb_neq; assumption. }
  rewrite E. apply in_or_app; right. apply in_or_app; right. apply in_or_app; right.
  apply in_or_app; left. now left.
Qed.

End Properties.

(** * Further properties of the validator *)

Section Checks.

Variable url_parses : string -> bool.

Lemma accumulated_issues_blocks c v :
  accumulated_issues url_parses c v =
  (startsWith_issues c v ++ endsWith_issues c v ++ includes_issues c v ++ length_issues c v
   ++ min_issues c v ++ max_issues c v ++ url_issues url_parses c v)%list.
Proof. reflexivity. Qed.

Ltac block_kind :=
  intros H;
  repeat match type of H with
  | context [match ?o with Some _ => _ | None => _ end] => destruct o
  | context [if ?b then _ else _] => destruct b
  end;
  simpl in H; intuition (subst; reflexivity).

Lemma kind_startsWith c v i : In i (startsWith_issues c v) -> issue_kind i = 3.
Proof. unfold startsWith_issues. block_kind. Qed.
Lemma kind_endsWith c v i : In i (endsWith_issues c v) -> issue_kind i = 4.
Proof. unfold endsWith_issues. block_kind. Qed.
Lemma kind_includes c v i : In i (includes_issues c v) -> issue_kind i = 5.
Proof. unfold includes_issues. block_kind. Qed.
Lemma kind_length c v i : In i (length_issues c v) -> issue_kind i = 6.
Proof. unfold length_issues. block_kind. Qed.
Lemma kind_min c v i : In i (min_issues c v) -> issue_kind i = 7.
Proof. unfold min_issues. block_kind. Qed.
Lemma kind_max c v i : In i (max_issues c v) -> issue_kind i = 8.
Proof. unfold max_issues. block_kind. Qed.
Lemma kind_url c v i : In i (url_issues url_parses c v) -> issue_kind i = 9.
Proof. unfold url_issues. block_kind. Qed.

(** An issue of the accumulating checks can only come from its own check. *)
Lemma in_accumulated c v i :
  In i (accumulated_issues url_parses c v) <->
  match i with
  | NotStartsWith _ => In i (startsWith_issues c v)
  | NotEndsWith _ => In i (endsWith_issues c v)
  | NotIncludes _ => In i (includes_issues c v)
  | NotLength _ => In i (length_issues c v)
  | BelowMin _ => In i (min_issues c v)
  | AboveMax _ => In i (max_issues c v)
  | NotUrl => In i (url_issues url_parses c v)
  | _ => False
  end.
Proof.
  rewrite accumulated_issues_blocks, !in_app_iff. split.
  - intros H.
    repeat destruct H as [H|H];
      first [ pose proof (kind_startsWith _ _ _ H) as K
            | pose proof (kind_endsWith _ _ _ H) as K
            | pose proof (kind_includes _ _ _ H) as K
            | pose proof (kind_length _ _ _ H) as K
            | pose proof (kind_min _ _ _ H) as K
            | pose proof (kind_max _ _ _ H) as K
            | pose proof (kind_url _ _ _ H) as K ];
      destruct i; simpl in K; try discriminate K; exact H.
  - destruct i; tauto.
Qed.

Lemma prefix_iff p v : String.prefix p v = true <-> exists s, v = (p ++ s)%string.
Proof.
  revert v; induction p as [|a p IH]; intros v; simpl.
  - split; [intros _; now exists v|intros _; destruct v; reflexivity].
  - destruct v as [|b v]; simpl.
    + split; [discriminate|intros [s H]; discriminate].
    + destruct (ascii_dec a b) as [->|Hne].
      * rewrite IH. split; intros [s Hs]; exists s; [now rewrite Hs|now injection Hs].
      * split; [discriminate|intros [s Hs]; injection Hs as Hab _; congruence].
Qed.

Lemma ends_with_unfold v p :
  ends_with v p = (String.eqb v p ||
                   match v with EmptyString => false | String _ rest => ends_with rest p end).
Proof. destruct v; reflexivity. Qed.

Lemma includes_str_unfold v p :
  includes_str v p = (String.prefix p v ||
                      match v with EmptyString => false | String _ rest => includes_str rest p end).
Proof. destruct v; reflexivity. Qed.

Lemma ends_with_iff v p : ends_with v p = true <-> exists s, v = (s ++ p)%string.
Proof.
  induction v as [|a v IH]; rewrite ends_with_unfold, orb_true_iff, String.eqb_eq.
  - split.
    + intros [<-|H]; [now exists ""|discriminate].
    + intros [[|b s] Hs]; [left; now rewrite Hs|discriminate].
  - rewrite IH. split.
    + intros [<-|[s Hs]]; [now exists ""|exists (String a s); now rewrite Hs].
    + intros [[|b s] Hs]; [left; now rewrite Hs|].
      injection Hs as -> ->. right. now exists s.
Qed.

Lemma includes_iff v p :
  includes_str v p = true <-> exists a b, v = (a ++ p ++ b)%string.
Proof.
  induction v as [|ch v IH]; rewrite includes_str_unfold, orb_true_iff, prefix_iff.
  - split.
    + intros [[s Hs]|H]; [exists "", s; exact Hs|discriminate].
    + intros [[|x a] [b Hb]]; [left; now exists b|discriminate].
  - rewrite IH. split.
    + intros [[s Hs]|[a [b Hb]]]; [exists "", s; exact Hs|].
      exists (String ch a), b. now rewrite Hb.
    + intros [[|x a] [b Hb]]; [left; now exists b|].
      injection Hb as -> ->. right. now exists a, b.
Qed.

(** The shape shared by the three string checks. *)
Lemma string_guard_iff (o : option string) (test : string -> bool) (mk : string -> Issue)
    (P : string -> Prop) (p : string) :
  (forall q r, mk q = mk r -> q = r) ->
  (forall q, test q = true <-> P q) ->
  In (mk p) (match o with
             | Some q => if truthy_string (Some q) && negb (test q) then [mk q] else []
             | None => [] end)
  <-> o = Some p /\ p <> "" /\ ~ P p.
Proof.
  intros Hmk Htest. destruct o as [q|]; simpl.
  - destruct (negb (q =? "")%string && negb (test q)) eqn:E; simpl.
    + apply andb_true_iff in E as [E1 E2]. apply negb_true_iff in E1, E2.
      apply String.eqb_neq in E1.
      split.
      * intros [H|[]]. apply Hmk in H as ->.
        split; [reflexivity|split; [exact E1|]]. rewrite <- Htest. congruence.
      * intros [H _]. injection H as ->. now left.
    + split; [intros []|]. intros [H [Hp Hn]]. injection H as ->.
      apply andb_false_iff in E as [E|E]; apply negb_false_iff in E.
      * apply String.eqb_eq in E. contradiction.
      * apply Htest in E. contradiction.
  - split; [intros []|intros [H _]; discriminate].
Qed.

Lemma length_issue_iff c v n :
  In (NotLength n) (accumulated_issues url_parses c v)
  <-> VarConfig.length c = Some n /\ n <> 0%Z /\ Z.of_nat (String.length v) <> n.
Proof.
  rewrite in_accumulated.
  unfold length_issues. destruct (VarConfig.length c) as [m|]; simpl.
  + destruct (negb (m =? 0)%Z && negb (Z.of_nat (String.length v) =? m)%Z) eqn:E; simpl.
    * apply andb_true_iff in E as [E1 E2]. apply negb_true_iff, Z.eqb_neq in E1, E2.
      split; [intros [H|[]]; injection H as ->; tauto|].
      intros [H _]. injection H as ->. now left.
    * split; [intros []|intros [H [Hn Hl]]]. injection H as ->.
      apply andb_false_iff in E as [E|E]; apply negb_false_iff, Z.eqb_eq in E; contradiction.
  + split; [intros []|intros [H _]; discriminate].
Qed.

Lemma max_issue_iff c v n :
  In (AboveMax n) (accumulated_issues url_parses c v)
  <-> VarConfig.max c = Some n /\ n <> 0%Z /\ (n < Z.of_nat (String.length v))%Z.
Proof.
  rewrite in_accumulated.
  unfold max_issues. destruct (VarConfig.max c) as [m|]; simpl.
  + destruct (negb (m =? 0)%Z && (m <? Z.of_nat (String.length v))%Z) eqn:E; simpl.
    * apply andb_true_iff in E as [E1 E2]. apply negb_true_iff, Z.eqb_neq in E1.
      apply Z.ltb_lt in E2.
      split; [intros [H|[]]; injection H as ->; tauto|].
      intros [H _]. injection H as ->. now left.
    * split; [intros []|intros [H [Hn Hl]]]. injection H as ->.
      apply andb_false_iff in E as [E|E].
      -- apply negb_false_iff, Z.eqb_eq in E. contradiction.
      -- apply Z.ltb_ge in E. lia.
  + split; [intros []|intros [H _]; discriminate].
Qed.

End Checks.

(** * Claims *)

Section Claims.

Variable url_parses : string -> bool.

(** C1 (code_bug): an exact-match constraint that is the empty string is
    falsy for [if (exactly)], so it is never checked: the value ["abc"]
    differs from [""] and yet the variable yields no violation at all. *)
Theorem C1_exactly_empty_not_enforced ctx :
  check_var url_parses ctx (env_of [("X", "abc")]) ("X", rule_exactly_empty) = None /\
  invalid_vars url_parses ctx (env_of [("X", "abc")]) [("X", rule_exactly_empty)] = [].
Proof. destruct ctx; split; reflexivity. Qed.

(** C2 (code_bug): an exact-length constraint of 0 is falsy for
    [if (length && ...)], so the value ["abc"] of length 3 gets no
    exact-length issue (and, with the default minimum 1, no violation). *)
Theorem C2_length_zero_not_enforced ctx :
  check_var url_parses ctx (env_of [("X", "abc")]) ("X", rule_length_zero) = None /\
  ~ In (NotLength 0) (accumulated_issues url_parses rule_length_zero "abc").
Proof. destruct ctx; (split; [reflexivity | simpl; tauto]). Qed.

(** C4: for an applicable rule whose value is absent, an optional rule adds no
    violation, and a required rule adds exactly one violation, in its place,
    with the issues [["Missing"]] and no value rendered. *)
Theorem C4_absent_value ctx env k c (l1 l2 : Vars)
  (Hctx : In ctx (VarConfig.context c)) (Habs : env k = None) :
  (VarConfig.optional c = true ->
     invalid_vars url_parses ctx env (l1 ++ (k, c) :: l2)%list
     = (invalid_vars url_parses ctx env l1 ++ invalid_vars url_parses ctx env l2)%list) /\
  (VarConfig.optional c = false ->
     invalid_vars url_parses ctx env (l1 ++ (k, c) :: l2)%list
     = (invalid_vars url_parses ctx env l1
        ++ mkInvalidVar k None [Missing] (VarConfig.secret c)
        :: invalid_vars url_parses ctx env l2)%list /\
     map issue_text (issues (mkInvalidVar k None [Missing] (VarConfig.secret c))) = ["Missing"] /\
     value_string (mkInvalidVar k None [Missing] (VarConfig.secret c)) = "").
Proof.
  apply existsb_context_in in Hctx.
  rewrite invalid_vars_app, invalid_vars_cons.
  unfold check_var. rewrite Hctx, Habs. simpl negb. cbv iota.
  split; intros Hopt; rewrite Hopt.
  - reflexivity.
  - repeat split.
Qed.

(** C7: a rule whose contexts do not include the active one adds no violation,
    whatever the environment holds (its value is not even looked up). *)
Theorem C7_out_of_context ctx k c (l1 l2 : Vars)
  (Hctx : ~ In ctx (VarConfig.context c)) :
  forall env env',
    check_var url_parses ctx env (k, c) = None /\
    check_var url_parses ctx env (k, c) = check_var url_parses ctx env' (k, c) /\
    invalid_vars url_parses ctx env (l1 ++ (k, c) :: l2)%list
    = (invalid_vars url_parses ctx env l1 ++ invalid_vars url_parses ctx env l2)%list.
Proof.
  assert (Hn : existsb (context_eqb ctx) (VarConfig.context c) = false).
  { destruct (existsb (context_eqb ctx) (VarConfig.context c)) eqn:E; [|reflexivity].
    exfalso. apply Hctx. now apply existsb_context_in. }
  intros env env'.
  assert (Hc : forall e, check_var url_parses ctx e (k, c) = None).
  { intros e. unfold check_var. now rewrite Hn. }
  rewrite invalid_vars_app, invalid_vars_cons, !Hc. repeat split.
Qed.

(** C9: when the value is present (the empty string included), the optional
    flag has no effect: the rule is checked exactly as the same rule with the
    flag set either way. *)
Theorem C9_optional_irrelevant_when_present ctx env k c v b
  (Hv : env k = Some v) :
  check_var url_parses ctx env (k, with_optional c b) = check_var url_parses ctx env (k, c).
Proof.
  unfold check_var, with_optional; cbn [VarConfig.context VarConfig.optional
    VarConfig.secret VarConfig.exactly].
  rewrite Hv. destruct (negb (existsb (context_eqb ctx) (VarConfig.context c))); [reflexivity|].
  destruct (exactly_check (VarConfig.exactly c) v); [reflexivity|].
  assert (E : accumulated_issues url_parses (VarConfig.mk (VarConfig.context c) b
     (VarConfig.secret c) (VarConfig.exactly c) (VarConfig.startsWith c) (VarConfig.endsWith c)
     (VarConfig.includes c) (VarConfig.length c) (VarConfig.min c) (VarConfig.max c)
     (VarConfig.url c)) v = accumulated_issues url_parses c v) by reflexivity.
  now rewrite E.
Qed.

(** C10: every violation the evaluator returns has at least one issue. *)
Theorem C10_issues_nonempty ctx env (vars : Vars) :
  Forall (fun iv => issues iv <> []) (invalid_vars url_parses ctx env vars).
Proof.
  induction vars as [|e vars IH].
  - constructor.
  - rewrite invalid_vars_cons. apply Forall_app. split; [|exact IH].
    destruct (check_var url_parses ctx env e) as [iv|] eqn:E; simpl; [|constructor].
    constructor; [|constructor]. eapply check_var_issues_nonempty. exact E.
Qed.

(** C3 (amended): in the first copy of [validateEnv], a non-empty violation
    list is reported as a header, one line per violation in order, then
    [process.exit(1)], and an empty one as a single informational success line
    with no exit; in the second copy, a non-empty list is reported the same
    way (header without log prefix), and an empty one emits nothing and does
    not exit. *)
Theorem C3_report_outcome_both_copies log_prefix (vars : Vars) ctx env :
  let ivs := invalid_vars url_parses ctx env vars in
  let out := validateEnv url_parses log_prefix vars ctx env in
  let out2 := validateEnv_v2 url_parses vars ctx env in
  ((ivs = [] /\
    out = [LoggerInfo (log_prefix ++ "All configured environment variables are valid")] /\
    out2 = []) \/
   (ivs <> [] /\
    out = LoggerError (log_prefix ++ "The following environment variables are invalid:" ++ nl)
          :: (map (fun iv => ConsoleError (report_line iv)) ivs ++ [ProcessExit 1])%list /\
    out2 = LoggerError ("The following environment variables are invalid:" ++ nl)
          :: (map (fun iv => ConsoleError (report_line iv)) ivs ++ [ProcessExit 1])%list)) /\
  (forall code, In (ProcessExit code) out <-> ivs <> [] /\ code = 1%Z) /\
  (forall code, In (ProcessExit code) out2 <-> ivs <> [] /\ code = 1%Z).
Proof.
  cbv zeta. unfold validateEnv, validateEnv_v2.
  destruct (invalid_vars url_parses ctx env vars) as [|iv ivs]; unfold report, report_v2;
    cbv beta iota.
  - split; [left; split; [reflexivity|split; reflexivity]|].
    split; intros code; split.
    + intros [H|[]]; discriminate.
    + intros [H _]; congruence.
    + intros [].
    + intros [H _]; congruence.
  - split; [right; split; [discriminate|split; reflexivity]|].
    split; intros code; split.
    + intros [H|H]; [discriminate|].
      apply in_app_or in H as [H|[H|[]]].
      * apply in_map_iff in H as [x [Hx _]]; discriminate.
      * injection H as <-. split; [discriminate|reflexivity].
    + intros [_ ->]. right. apply in_or_app. right. now left.
    + intros [H|H]; [discriminate|].
      apply in_app_or in H as [H|[H|[]]].
      * apply in_map_iff in H as [x [Hx _]]; discriminate.
      * injection H as <-. split; [discriminate|reflexivity].
    + intros [_ ->]. right. apply in_or_app. right. now left.
Qed.

(** C5: for every present value of an applicable rule, a failing exact-match
    check is the whole violation; otherwise the minimum-length check runs
    whatever the exact-length and maximum-length constraints are: its issue is
    recorded exactly when the value is shorter than the minimum, beside an
    exact-length issue (recorded exactly when [length] is a non-zero number
    other than the value's length) and a maximum-length issue (recorded exactly
    when [max] is a non-zero number below the value's length), so several
    length issues accumulate on one variable. A rule with the default minimum 1
    and no other constraint yields, for the empty string, exactly one
    violation, citing the minimum length. *)
Theorem C5_min_length_check ctx env k c v
  (Hctx : In ctx (VarConfig.context c)) (Hv : env k = Some v) :
  let len := Z.of_nat (String.length v) in
  (forall i, exactly_check (VarConfig.exactly c) v = Some i ->
     check_var url_parses ctx env (k, c)
     = Some (mkInvalidVar k (Some v) [i] (VarConfig.secret c))) /\
  (exactly_check (VarConfig.exactly c) v = None ->
     ((len < VarConfig.min c)%Z ->
        exists iv, check_var url_parses ctx env (k, c) = Some iv /\
                   In (BelowMin (VarConfig.min c)) (issues iv)) /\
     (forall iv, check_var url_parses ctx env (k, c) = Some iv ->
        (In (BelowMin (VarConfig.min c)) (issues iv) <-> (len < VarConfig.min c)%Z) /\
        (forall n, In (NotLength n) (issues iv)
           <-> VarConfig.length c = Some n /\ n <> 0%Z /\ len <> n) /\
        (forall n, In (AboveMax n) (issues iv)
           <-> VarConfig.max c = Some n /\ n <> 0%Z /\ (n < len)%Z))) /\
  (v = "" -> VarConfig.exactly c = None -> VarConfig.min c = 1%Z ->
   VarConfig.startsWith c = None -> VarConfig.endsWith c = None ->
   VarConfig.includes c = None -> VarConfig.length c = None ->
   VarConfig.max c = None -> VarConfig.url c = None ->
     invalid_vars url_parses ctx env [(k, c)]
     = [mkInvalidVar k (Some "") [BelowMin 1] (VarConfig.secret c)]).
Proof.
  cbv zeta. apply existsb_context_in in Hctx.
  assert (Hc0 : check_var url_parses ctx env (k, c)
    = match exactly_check (VarConfig.exactly c) v with
      | Some i => Some (mkInvalidVar k (Some v) [i] (VarConfig.secret c))
      | None =>
          match accumulated_issues url_parses c v with
          | [] => None
          | is => Some (mkInvalidVar k (Some v) is (VarConfig.secret c))
          end
      end).
  { unfold check_var. rewrite Hctx, Hv. reflexivity. }
  split; [|split].
  - intros i Hi. rewrite Hc0, Hi. reflexivity.
  - intros Hex. rewrite Hex in Hc0. split.
    + intros Hlt. apply (accumulated_issues_in_min url_parses c v) in Hlt.
      rewrite Hc0. destruct (accumulated_issues url_parses c v) as [|i is]; [contradiction|].
      eexists; split; [reflexivity|exact Hlt].
    + intros iv. rewrite Hc0.
      destruct (accumulated_issues url_parses c v) as [|i is] eqn:Ha; [discriminate|].
      intros H. injection H as <-. cbn [issues]. rewrite <- Ha.
      split; [apply accumulated_issues_in_min|split; intros n].
      * apply length_issue_iff.
      * apply max_issue_iff.
  - intros -> Hexn Hmin Hs He Hi Hl Hm Hu.
    rewrite invalid_vars_cons, Hc0, Hexn. cbn [exactly_check truthy_exactly negb].
    unfold accumulated_issues.
    rewrite Hs, He, Hi, Hl, Hmin, Hm, Hu. reflexivity.
Qed.

(** C6: how the value is rendered in a report line: nothing (not even [=])
    for an absent value, [=""] for the empty string, [=<secret>] for a
    non-empty secret value, [=value] otherwise. *)
Theorem C6_value_rendering k v is s (Hv : v <> "") :
  report_line (mkInvalidVar k None is s) = k ++ " -> " ++ join ", " (map issue_text is) /\
  value_string (mkInvalidVar k None is s) = "" /\
  value_string (mkInvalidVar k (Some "") is s) = "=" ++ dq ++ dq /\
  value_string (mkInvalidVar k (Some v) is true) = "=<secret>" /\
  value_string (mkInvalidVar k (Some v) is false) = "=" ++ v /\
  report_line (mkInvalidVar k (Some v) is s)
  = k ++ value_string (mkInvalidVar k (Some v) is s) ++ " -> " ++ join ", " (map issue_text is).
Proof.
  apply String.eqb_neq in Hv.
  unfold report_line, value_string; cbn [value iv_secret key issues]. rewrite Hv.
  repeat split.
Qed.

End Claims.

(** * Property order of [Object.entries] *)

Section ObjectOrder.

Context {A : Type}.

Definition le_index (p q : Z * (string * A)) : Prop := (fst p <= fst q)%Z.

Lemma insert_by_index_perm (x : Z * (string * A)) l :
  Permutation (insert_by_index x l) (x :: l).
Proof.
  induction l as [|y t IH]; simpl; [reflexivity|].
  destruct (fst x <? fst y)%Z; [reflexivity|].
  rewrite IH. apply perm_swap.
Qed.

Lemma insert_by_index_hdrel (x y : Z * (string * A)) l :
  HdRel le_index y l -> le_index y x -> HdRel le_index y (insert_by_index x l).
Proof.
  intros H Hyx. destruct l as [|z t]; simpl; [now constructor|].
  destruct (fst x <? fst z)%Z; constructor; [exact Hyx|].
  now inversion H.
Qed.

Lemma insert_by_index_sorted (x : Z * (string * A)) l :
  Sorted le_index l -> Sorted le_index (insert_by_index x l).
Proof.
  induction l as [|y t IH]; simpl; intros H.
  - now repeat constructor.
  - destruct (fst x <? fst y)%Z eqn:E.
    + apply Z.ltb_lt in E. constructor; [exact H|]. constructor. unfold le_index. lia.
    + apply Z.ltb_ge in E. inversion H as [|? ? Ht Hhd]; subst.
      constructor; [now apply IH|].
      apply insert_by_index_hdrel; [exact Hhd|]. unfold le_index. lia.
Qed.

Lemma sort_by_index_perm (l : list (Z * (string * A))) :
  Permutation (fold_right insert_by_index [] l) l.
Proof.
  induction l as [|x t IH]; simpl; [reflexivity|].
  rewrite insert_by_index_perm. now apply perm_skip.
Qed.

Lemma sort_by_index_sorted (l : list (Z * (string * A))) :
  Sorted le_index (fold_right insert_by_index [] l).
Proof.
  induction l as [|x t IH]; simpl; [constructor|]. now apply insert_by_index_sorted.
Qed.

Lemma index_entries_snd (props : list (string * A)) :
  map snd (index_entries props) = filter (fun e => is_array_index (fst e)) props.
Proof.
  induction props as [|e t IH]; simpl; [reflexivity|].
  unfold is_array_index at 1. destruct (array_index (fst e)); simpl; now rewrite IH.
Qed.

Lemma index_entries_in (props : list (string * A)) p :
  In p (index_entries props) -> array_index (fst (snd p)) = Some (fst p) /\ In (snd p) props.
Proof.
  unfold index_entries. rewrite in_flat_map. intros [e [He Hp]].
  destruct (array_index (fst e)) eqn:E; [|contradiction].
  destruct Hp as [<- | []]. now split.
Qed.

Lemma filter_split_perm (f : string * A -> bool) l :
  Permutation (filter f l ++ filter (fun e => negb (f e)) l)%list l.
Proof.
  induction l as [|e t IH]; simpl; [reflexivity|].
  destruct (f e); simpl.
  - now apply perm_skip.
  - rewrite <- Permutation_middle. now apply perm_skip.
Qed.

Lemma filter_all_true (f : string * A -> bool) l :
  Forall (fun e => f e = true) l -> filter f l = l.
Proof.
  induction 1 as [|e t He _ IH]; simpl; [reflexivity|]. now rewrite He, IH.
Qed.

End ObjectOrder.

(** The member lines depend only on the keys and optional flags. *)
Lemma member_lines_key_optional (vars' vars : Vars) :
  map key_and_optional vars' = map key_and_optional vars ->
  map member_line vars' = map member_line vars.
Proof.
  revert vars'. induction vars as [|[k c] vars IH]; intros [|[k' c'] vars'] H;
    try discriminate; [reflexivity|].
  simpl in H. injection H as Hk Ho Hrest. subst k'.
  simpl. rewrite (IH vars' Hrest). unfold member_line. now rewrite Ho.
Qed.

(** C8 (amended): [vars] is the rule mapping in [Object.entries] order,
    i.e. array-index keys first in ascending numeric order, then the other
    keys in insertion order ([props] is the insertion order). The
    declaration is the fixed template around one member line per entry, in
    that order, typed [?: string] for an optional rule and [: string]
    otherwise; only the keys and optional flags matter. Without
    array-index keys the order is the insertion order. *)
Theorem C8_declaration_lines_entries_order (props : Vars) :
  let vars := js_object_entries props in
  generateProcessEnvDeclaration vars
  = mkFileWrite "process.env.d.ts" (decl_header ++ join nl (map member_line vars) ++ decl_footer) /\
  List.length (map member_line vars) = List.length props /\
  (forall i k c, nth_error vars i = Some (k, c) ->
     nth_error (map member_line vars) i
     = Some (if VarConfig.optional c then "      readonly " ++ k ++ "?: string"
             else "      readonly " ++ k ++ ": string")) /\
  (forall vars', map key_and_optional vars' = map key_and_optional vars ->
     generateProcessEnvDeclaration vars' = generateProcessEnvDeclaration vars) /\
  Permutation vars props /\
  (exists sidx : list (Z * (string * VarConfig.t)),
     vars = (map snd sidx ++ filter (fun e => negb (is_array_index (fst e))) props)%list /\
     Forall (fun p => array_index (fst (snd p)) = Some (fst p) /\ In (snd p) props) sidx /\
     Sorted (fun p q => (fst p <= fst q)%Z) sidx) /\
  (Forall (fun e => is_array_index (fst e) = false) props -> vars = props).
Proof.
  intros vars.
  assert (Hperm : Permutation vars props).
  { unfold vars, js_object_entries.
    rewrite (Permutation_map snd (sort_by_index_perm (index_entries props))).
    rewrite index_entries_snd. apply filter_split_perm. }
  split; [reflexivity|]. split.
  { rewrite length_map. now apply Permutation_length. }
  split.
  { intros i k c H. rewrite nth_error_map, H. reflexivity. }
  split.
  { intros vars' H. unfold generateProcessEnvDeclaration, env_declaration.
    now rewrite (member_lines_key_optional vars' vars H).
  }
  split; [exact Hperm|]. split.
  - exists (fold_right insert_by_index [] (index_entries props)). split; [reflexivity|].
    split; [|apply sort_by_index_sorted].
    apply Forall_forall. intros p Hp. apply index_entries_in.
    now apply (Permutation_in _ (sort_by_index_perm _)).
  - intros H. unfold vars, js_object_entries.
    replace (index_entries props) with (@nil (Z * (string * VarConfig.t))).
    + simpl. apply filter_all_true.
      eapply Forall_impl; [|exact H]. simpl. intros e ->. reflexivity.
    + clear Hperm vars. unfold index_entries.
      induction H as [|e t He _ IH]; simpl; [reflexivity|].
      unfold is_array_index in He. destruct (array_index (fst e)); [discriminate|].
      exact IH.
Qed.

(** * Concrete runs: witnesses and counterexamples *)

(** C8 fails as stated: for the rules [{ B: {}, "1": {} }], inserted as
    [B] then ["1"], [Object.entries] lists ["1"] first, so the generated
    declaration has the line of ["1"] before the line of [B], not the
    insertion order. *)
Lemma C8_integer_key_first :
  js_object_entries props_B_1 = [("1", VarConfig.default); ("B", VarConfig.default)] /\
  contents (generateProcessEnvDeclaration (js_object_entries props_B_1))
  = decl_header ++ "      readonly 1: string" ++ nl ++ "      readonly B: string" ++ decl_footer /\
  generateProcessEnvDeclaration (js_object_entries props_B_1)
  <> mkFileWrite "process.env.d.ts" (decl_header ++ join nl (map member_line props_B_1) ++ decl_footer).
Proof.
  split; [reflexivity|]. split; [reflexivity|].
  vm_compute. discriminate.
Qed.

(** Several length issues accumulate on one variable. *)
Example multiple_length_issues :
  check_var url_always Server (env_of [("X", "ab")]) ("X", rule_length_min_max)
  = Some (mkInvalidVar "X" (Some "ab") [NotLength 5; BelowMin 3; AboveMax 1] false).
Proof. reflexivity. Qed.

Lemma C4_witness :
  In Server (VarConfig.context VarConfig.default) /\ env_of [] "K" = None /\
  invalid_vars url_always Server (env_of []) [("K", VarConfig.default)]
  = [mkInvalidVar "K" None [Missing] false].
Proof.
  assert (H1 : In Server (VarConfig.context VarConfig.default)) by (simpl; tauto).
  assert (H2 : env_of [] "K" = None) by reflexivity.
  split; [exact H1|split; [exact H2|]].
  exact (proj1 (proj2 (C4_absent_value url_always Server (env_of []) "K" VarConfig.default
                         [] [] H1 H2) eq_refl)).
Defined.


(** C3: the second copy of [validateEnv], run on an empty mapping, finds no
    violation and emits nothing: no informational success line. *)
Lemma C3_second_copy_no_success_line :
  invalid_vars url_always Server (env_of []) [] = [] /\
  validateEnv_v2 url_always [] Server (env_of []) = [] /\
  ~ exists msg, In (LoggerInfo msg) (validateEnv_v2 url_always [] Server (env_of [])).
Proof.
  split; [reflexivity|split; [reflexivity|]].
  intros [msg H]. exact H.
Qed.

Lemma C5_witness :
  In Server (VarConfig.context rule_length_min_max) /\
  env_of [("X", "ab")] "X" = Some "ab" /\
  exactly_check (VarConfig.exactly rule_length_min_max) "ab" = None /\
  check_var url_always Server (env_of [("X", "ab")]) ("X", rule_length_min_max)
  = Some (mkInvalidVar "X" (Some "ab") [NotLength 5; BelowMin 3; AboveMax 1] false) /\
  In (BelowMin 3) [NotLength 5; BelowMin 3; AboveMax 1] /\
  In (NotLength 5) [NotLength 5; BelowMin 3; AboveMax 1] /\
  In (AboveMax 1) [NotLength 5; BelowMin 3; AboveMax 1].
Proof.
  assert (H1 : In Server (VarConfig.context rule_length_min_max)) by (simpl; tauto).
  assert (H2 : env_of [("X", "ab")] "X" = Some "ab") by reflexivity.
  assert (H3 : exactly_check (VarConfig.exactly rule_length_min_max) "ab" = None) by reflexivity.
  assert (H4 : check_var url_always Server (env_of [("X", "ab")]) ("X", rule_length_min_max)
    = Some (mkInvalidVar "X" (Some "ab") [NotLength 5; BelowMin 3; AboveMax 1] false))
    by reflexivity.
  destruct (proj2 (proj1 (proj2 (C5_min_length_check url_always Server (env_of [("X", "ab")])
              "X" rule_length_min_max "ab" H1 H2)) H3) _ H4) as [Hmin [Hlen Hmax]].
  split; [exact H1|split; [exact H2|split; [exact H3|split; [exact H4|]]]].
  split; [apply Hmin; simpl; lia|split].
  - apply Hlen. split; [reflexivity|split; [discriminate|simpl; lia]].
  - apply Hmax. split; [reflexivity|split; [discriminate|simpl; lia]].
Defined.

Lemma C6_witness :
  "abc" <> "" /\ value_string (mkInvalidVar "K" (Some "abc") [Missing] true) = "=<secret>".
Proof.
  assert (H : "abc" <> "") by discriminate.
  split; [exact H|].
  exact (proj1 (proj2 (proj2 (proj2 (C6_value_rendering "K" "abc" [Missing] true H))))).
Defined.

Lemma C7_witness :
  ~ In Dev (VarConfig.context rule_build_only) /\
  invalid_vars url_always Dev (env_of [("K", "")]) [("K", rule_build_only)] = [].
Proof.
  assert (H : ~ In Dev (VarConfig.context rule_build_only)) by (simpl; intros [H|[]]; discriminate).
  split; [exact H|].
  exact (proj2 (proj2 (C7_out_of_context url_always Dev "K" rule_build_only [] [] H
                         (env_of [("K", "")]) (env_of [])))).
Defined.

Lemma C9_witness :
  env_of [("K", "")] "K" = Some "" /\
  check_var url_always Dev (env_of [("K", "")]) ("K", with_optional VarConfig.default true)
  = Some (mkInvalidVar "K" (Some "") [BelowMin 1] false).
Proof.
  assert (H : env_of [("K", "")] "K" = Some "") by reflexivity.
  split; [exact H|].
  rewrite (C9_optional_irrelevant_when_present url_always Dev (env_of [("K", "")]) "K"
             VarConfig.default "" true H).
  reflexivity.
Defined.


Section Extras.

Variable url_parses : string -> bool.

(** X1: a variable configured with no options at all (every [varsSchema]
    default) is valid exactly when it is present and non-empty, in every
    context. *)
Theorem X1_default_rule_valid_iff ctx env k :
  check_var url_parses ctx env (k, VarConfig.default) = None
  <-> exists v, env k = Some v /\ v <> "".
Proof.
  unfold check_var.
  assert (Hc : existsb (context_eqb ctx) (VarConfig.context VarConfig.default) = true)
    by (destruct ctx; reflexivity).
  rewrite Hc. simpl negb. cbv iota.
  destruct (env k) as [v|]; cbn [VarConfig.optional VarConfig.default].
  - destruct v as [|ch v].
    + split; [discriminate|intros [w [Hw Hne]]; injection Hw as <-; contradiction].
    + assert (E : accumulated_issues url_parses VarConfig.default (String ch v) = []).
      { unfold accumulated_issues; cbn [VarConfig.startsWith VarConfig.endsWith
          VarConfig.includes VarConfig.length VarConfig.min VarConfig.max VarConfig.url
          VarConfig.default].
        replace (Z.of_nat (String.length (String ch v)) <? 1)%Z with false
          by (symmetry; apply Z.ltb_ge; simpl; lia).
        reflexivity. }
      simpl exactly_check. cbv iota. rewrite E.
      split; [intros _; exists (String ch v); split; [reflexivity|discriminate]|reflexivity].
  - split; [discriminate|intros [w [Hw _]]; discriminate].
Qed.


(** X3: the numeric and URL checks: an exact-length issue is recorded exactly
    when [length] is set, non-zero and differs from the value's length; a
    maximum-length issue exactly when [max] is set, non-zero and below the
    value's length (so [length: 0] and [max: 0] check nothing); a
    minimum-length issue exactly when the value is shorter than [min]; a URL
    issue exactly when [url] is [true] and the value does not parse. *)
Theorem X3_numeric_and_url_checks c v n :
  let len := Z.of_nat (String.length v) in
  (In (NotLength n) (accumulated_issues url_parses c v)
     <-> VarConfig.length c = Some n /\ n <> 0%Z /\ len <> n) /\
  (In (AboveMax n) (accumulated_issues url_parses c v)
     <-> VarConfig.max c = Some n /\ n <> 0%Z /\ (n < len)%Z) /\
  (In (BelowMin n) (accumulated_issues url_parses c v)
     <-> n = VarConfig.min c /\ (len < VarConfig.min c)%Z) /\
  (In NotUrl (accumulated_issues url_parses c v)
     <-> VarConfig.url c = Some true /\ url_parses v = false).
Proof.
  cbv zeta.
  split; [|split; [|split]].
  - apply length_issue_iff.
  - apply max_issue_iff.
  - rewrite in_accumulated. unfold min_issues. destruct (Z.of_nat (String.length v) <? VarConfig.min c)%Z eqn:E; simpl.
    + apply Z.ltb_lt in E. split; [intros [H|[]]; injection H as Hn; subst n; tauto|].
      intros [-> _]. now left.
    + apply Z.ltb_ge in E. split; [intros []|intros [_ H]; lia].
  - rewrite in_accumulated. unfold url_issues. destruct (VarConfig.url c) as [[|]|]; simpl.
    + destruct (url_parses v); simpl.
      * split; [intros []|intros [_ H]; discriminate].
      * split; [intros _; tauto|intros _; now left].
    + split; [intros []|intros [H _]; discriminate].
    + split; [intros []|intros [H _]; discriminate].
Qed.

(** X4: the string checks: a prefix, suffix or substring issue is recorded
    exactly when that option is set to a non-empty string that the value does
    not start with, end with or contain. *)
Theorem X4_string_checks c v p :
  (In (NotStartsWith p) (accumulated_issues url_parses c v)
     <-> VarConfig.startsWith c = Some p /\ p <> "" /\ ~ exists s, v = (p ++ s)%string) /\
  (In (NotEndsWith p) (accumulated_issues url_parses c v)
     <-> VarConfig.endsWith c = Some p /\ p <> "" /\ ~ exists s, v = (s ++ p)%string) /\
  (In (NotIncludes p) (accumulated_issues url_parses c v)
     <-> VarConfig.includes c = Some p /\ p <> "" /\ ~ exists a b, v = (a ++ p ++ b)%string).
Proof.
  rewrite !in_accumulated.
  split; [|split].
  - apply (string_guard_iff (VarConfig.startsWith c) (fun q => starts_with v q) NotStartsWith
             (fun q => exists s, v = (q ++ s)%string)).
    + intros q r H; now injection H.
    + intros q. apply prefix_iff.
  - apply (string_guard_iff (VarConfig.endsWith c) (fun q => ends_with v q) NotEndsWith
             (fun q => exists s, v = (s ++ q)%string)).
    + intros q r H; now injection H.
    + intros q. apply ends_with_iff.
  - apply (string_guard_iff (VarConfig.includes c) (fun q => includes_str v q) NotIncludes
             (fun q => exists a b, v = (a ++ q ++ b)%string)).
    + intros q r H; now injection H.
    + intros q. apply includes_iff.
Qed.

End Extras.

Section LoopAndReport.

Variable url_parses : string -> bool.

Lemma check_var_some_inv ctx env k c iv :
  check_var url_parses ctx env (k, c) = Some iv ->
  key iv = k /\ In ctx (VarConfig.context c) /\ iv_secret iv = VarConfig.secret c /\
  value iv = env k /\
  ((value iv = None /\ issues iv = [Missing] /\ VarConfig.optional c = false) \/
   (exists v, value iv = Some v /\ ~ In Missing (issues iv))).
Proof.
  unfold check_var.
  destruct (existsb (context_eqb ctx) (VarConfig.context c)) eqn:Hc; simpl negb;
    [|discriminate]. apply existsb_context_in in Hc. cbv iota.
  destruct (env k) as [v|] eqn:Hv.
  - destruct (exactly_check (VarConfig.exactly c) v) as [i|] eqn:Hex.
    + intros H. injection H as <-. cbn [key value issues iv_secret].
      do 4 (split; [reflexivity || assumption|]). right. exists v. split; [reflexivity|].
      unfold exactly_check in Hex.
      destruct (truthy_exactly (VarConfig.exactly c)); [|discriminate].
      destruct (VarConfig.exactly c) as [[s|xs]|]; try discriminate;
        [destruct (v =? s)%string | destruct (existsb (String.eqb v) xs)]; try discriminate;
        injection Hex as <-; intros [H|[]]; discriminate.
    + destruct (accumulated_issues url_parses c v) as [|i is] eqn:Ha; [discriminate|].
      intros H. injection H as <-. cbn [key value issues iv_secret].
      do 4 (split; [reflexivity || assumption|]). right. exists v. split; [reflexivity|].
      rewrite <- Ha, in_accumulated. tauto.
  - destruct (VarConfig.optional c) eqn:Ho; [discriminate|].
    intros H. injection H as <-. cbn [key value issues iv_secret].
    do 4 (split; [reflexivity || assumption|]). left. tauto.
Qed.

(** X5: every violation comes from a rule of the mapping that applies in the
    active context; it carries the rule's secret flag and the value
    [process.env] holds for its key; and it is a lone ["Missing"] issue
    (of a non-optional rule) exactly when that value is absent, while a
    present value never gets a ["Missing"] issue. *)
Theorem X5_violation_provenance ctx env (vars : Vars) :
  Forall (fun iv =>
    (exists c, In (key iv, c) vars /\ In ctx (VarConfig.context c) /\
               iv_secret iv = VarConfig.secret c /\
               (value iv = None -> VarConfig.optional c = false)) /\
    value iv = env (key iv) /\
    ((value iv = None /\ issues iv = [Missing]) \/
     (exists v, value iv = Some v /\ ~ In Missing (issues iv))))
  (invalid_vars url_parses ctx env vars).
Proof.
  rewrite invalid_vars_flat_map. apply Forall_forall.
  intros iv Hin. apply in_flat_map in Hin as [[k c] [Hkc Hiv]].
  destruct (check_var url_parses ctx env (k, c)) as [iv'|] eqn:E; [|destruct Hiv].
  destruct Hiv as [<-|[]].
  apply check_var_some_inv in E as (Hk & Hctx & Hs & Hval & Hcase). subst k.
  split; [|split; [exact Hval|]].
  - exists c. split; [exact Hkc|split; [exact Hctx|split; [exact Hs|]]].
    destruct Hcase as [(_ & _ & Ho)|[v [Hv _]]]; intros Hn; [exact Ho|congruence].
  - destruct Hcase as [(H1 & H2 & _)|H]; [left; tauto|right; exact H].
Qed.

(** X6: the violations come one per failing rule, in the order of the rules
    in the mapping. *)
Theorem X6_violation_order ctx env (vars : Vars) :
  map key (invalid_vars url_parses ctx env vars)
  = map fst (filter (fun e => match check_var url_parses ctx env e with
                              | Some _ => true | None => false end) vars).
Proof.
  rewrite invalid_vars_flat_map.
  induction vars as [|[k c] vars IH]; [reflexivity|].
  cbn [flat_map filter]. destruct (check_var url_parses ctx env (k, c)) as [iv|] eqn:E;
    cbn [option_list app map fst].
  - apply check_var_some_inv in E as (Hk & _). now rewrite Hk, IH.
  - exact IH.
Qed.

Lemma validateEnv_exit_iff log_prefix vars ctx env code :
  In (ProcessExit code) (validateEnv url_parses log_prefix vars ctx env)
  <-> invalid_vars url_parses ctx env vars <> [] /\ code = 1%Z.
Proof.
  unfold validateEnv.
  destruct (invalid_vars url_parses ctx env vars) as [|iv ivs]; unfold report; cbv beta iota.
  - split; [intros [H|[]]; discriminate|intros [H _]; congruence].
  - split.
    + intros [H|H]; [discriminate|].
      apply in_app_or in H as [H|[H|[]]].
      * apply in_map_iff in H as [x [Hx _]]; discriminate.
      * injection H as <-. split; [discriminate|reflexivity].
    + intros [_ ->]. right. apply in_or_app. right. now left.
Qed.

(** X7: the second copy of [validateEnv] logs nothing when every variable is
    valid, never logs an informational line, and otherwise reports exactly
    as the first copy does with an empty log prefix. *)
Theorem X7_second_copy_report vars ctx env :
  (invalid_vars url_parses ctx env vars = [] ->
     validateEnv_v2 url_parses vars ctx env = []) /\
  (invalid_vars url_parses ctx env vars <> [] ->
     validateEnv_v2 url_parses vars ctx env = validateEnv url_parses "" vars ctx env) /\
  (forall msg, ~ In (LoggerInfo msg) (validateEnv_v2 url_parses vars ctx env)).
Proof.
  unfold validateEnv_v2, validateEnv.
  destruct (invalid_vars url_parses ctx env vars) as [|iv ivs]; unfold report_v2, report;
    cbv beta iota.
  - split; [reflexivity|split; [intros H; contradiction|intros msg []]].
  - split; [intros H; discriminate|split; [reflexivity|]].
    intros msg [H|H]; [discriminate|].
    apply in_app_or in H as [H|[H|[]]]; [|discriminate].
    apply in_map_iff in H as [x [Hx _]]; discriminate.
Qed.

(** X9: the [astro:config:setup] hook stops the process exactly when it is
    not a restart, the command is [dev] or [build], and validation in that
    context finds a violation; [sync], [preview] and restarts never exit. *)
Theorem X9_config_setup_exit env timeString (vars : Vars) command isRestart code :
  In (HookEmit (ProcessExit code)) (config_setup url_parses env timeString vars command isRestart)
  <-> isRestart = false /\ code = 1%Z /\
      ((command = CmdDev /\ invalid_vars url_parses Dev env vars <> []) \/
       (command = CmdBuild /\ invalid_vars url_parses Build env vars <> [])).
Proof.
  unfold config_setup. destruct isRestart.
  - split; [intros []|intros [H _]; discriminate].
  - destruct command.
    + simpl. rewrite in_map_iff. split.
      * intros [H|[e [He Hin]]]; [discriminate|].
        injection He as ->. apply validateEnv_exit_iff in Hin as [Hn ->].
        split; [reflexivity|split; [reflexivity|left; split; [reflexivity|exact Hn]]].
      * intros [_ [-> [[_ Hn]|[H _]]]]; [|discriminate].
        right. exists (ProcessExit 1). split; [reflexivity|].
        apply validateEnv_exit_iff. split; [exact Hn|reflexivity].
    + simpl. rewrite in_map_iff. split.
      * intros [H|[e [He Hin]]]; [discriminate|].
        injection He as ->. apply validateEnv_exit_iff in Hin as [Hn ->].
        split; [reflexivity|split; [reflexivity|right; split; [reflexivity|exact Hn]]].
      * intros [_ [-> [[H _]|[_ Hn]]]]; [discriminate|].
        right. exists (ProcessExit 1). split; [reflexivity|].
        apply validateEnv_exit_iff. split; [exact Hn|reflexivity].
    + split; [intros []|intros [_ [_ [[H _]|[H _]]]]; discriminate].
    + split; [intros [H|[]]; discriminate|intros [_ [_ [[H _]|[H _]]]]; discriminate].
Qed.

End LoopAndReport.

Lemma split_space_first t :
  exists p ps, split_space t = p :: ps /\ ~ In " "%char (list_ascii_of_string p) /\
               (t = p \/ exists rest, t = (p ++ String " "%char rest)%string).
Proof.
  induction t as [|ch t IH].
  - exists "", []. split; [reflexivity|split; [intros []|now left]].
  - destruct IH as (p & ps & Hs & Hp & Ht). simpl. rewrite Hs.
    destruct (Ascii.eqb ch " "%char) eqn:E.
    + apply Ascii.eqb_eq in E as ->.
      exists "", (p :: ps). split; [reflexivity|split; [intros []|right; now exists t]].
    + apply Ascii.eqb_neq in E.
      exists (String ch p), ps. split; [reflexivity|split].
      * simpl. intros [H|H]; [congruence|contradiction].
      * destruct Ht as [->|[rest ->]]; [now left|right; now exists rest].
Qed.

(** X8: [getTimeString] returns the text before the first space of
    [toTimeString()] (all of it when there is none): [split(" ")] always has
    a first piece, so the [?? timeString] fallback never applies. *)
Theorem X8_getTimeString_first_word t :
  nth_error (split_space t) 0 <> None /\
  ~ In " "%char (list_ascii_of_string (getTimeString t)) /\
  (t = getTimeString t \/ exists rest, t = (getTimeString t ++ String " "%char rest)%string).
Proof.
  destruct (split_space_first t) as (p & ps & Hs & Hp & Ht).
  unfold getTimeString. rewrite Hs. simpl.
  split; [discriminate|split; assumption].
Qed.
